(** * GPS: the simplified General Problem Solver of gps.cpp

    A shallow embedding of [src/gps.cpp], the C++11 translation of the
    simplified GPS program of PAIP chapter 4, and the properties of its
    set primitives, of the [achieve]/[apply_op] recursion and of the
    driver [GPS].

    The program keeps two globals, [current_state] and
    [current_operations], and writes to standard output.  They are
    modelled by the record [World]; every function that touches them is
    a computation in the monad [M], which threads the world and can
    run out of fuel ([None]), since the mutual recursion of the source
    has no termination guard. *)

From stdpp Require Import base list strings.
From Stdlib Require Import ZArith.

Open Scope string_scope.

(** ** Data model *)

(** [using Condition = std::string;] *)
Definition Condition := string.

(** [struct Op] *)
Record Op := mkOp {
  action : string;
  preconds : list Condition;
  add_list : list Condition;
  del_list : list Condition
}.

(** One record per [std::printf] call of the program; [render] gives the
    text that the call writes. *)
Inductive Printf :=
| Executing (name : string)   (* "Executing operation: %s.\n" *)
| Solved                      (* "SOLVED.\n" *)
| Failed                      (* "FAILED.\n" *)
| IsEven (d : Z).             (* "2 is even: %d\n" *)

Definition nl : string := String (Ascii.ascii_of_nat 10) EmptyString.

Definition digits (d : Z) : string :=
  if (d =? 0)%Z then "0" else if (d =? 1)%Z then "1" else "?".

Definition render (p : Printf) : string :=
  match p with
  | Executing name => "Executing operation: " ++ name ++ "." ++ nl
  | Solved => "SOLVED." ++ nl
  | Failed => "FAILED." ++ nl
  | IsEven d => "2 is even: " ++ digits d ++ nl
  end.

(** The globals [current_state] and [current_operations], and what has
    been printed so far (oldest first). *)
Record World := mkWorld {
  current_state : list Condition;
  current_operations : list Op;
  stdout : list Printf
}.

(** The trace of a run: the names of the operations executed, in order. *)
Definition trace_of (out : list Printf) : list string :=
  omap (fun p => match p with Executing name => Some name | _ => None end) out.

Definition trace (w : World) : list string := trace_of (stdout w).

(** The text on standard output. *)
Definition printed (w : World) : string :=
  foldr (fun p text => render p ++ text) "" (stdout w).

(** ** The monad of the program: world passing, [None] when out of fuel *)

Definition M (A : Type) : Type := World -> option (A * World).

Definition ret {A} (a : A) : M A := fun w => Some (a, w).

Definition bind {A B} (m : M A) (k : A -> M B) : M B :=
  fun w => match m w with
           | Some (a, w') => k a w'
           | None => None
           end.

Declare Scope gps_scope.
Delimit Scope gps_scope with gps.
Notation "x <- m ;; k" := (bind m (fun x => k))
  (at level 100, m at next level, right associativity) : gps_scope.
Notation "m ;; k" := (bind m (fun _ => k))
  (at level 100, right associativity) : gps_scope.
Open Scope gps_scope.

Definition get_state : M (list Condition) :=
  fun w => Some (current_state w, w).

Definition get_operations : M (list Op) :=
  fun w => Some (current_operations w, w).

Definition set_state (s : list Condition) : M unit :=
  fun w => Some (tt, mkWorld s (current_operations w) (stdout w)).

Definition set_operations (o : list Op) : M unit :=
  fun w => Some (tt, mkWorld (current_state w) o (stdout w)).

Definition printf (p : Printf) : M unit :=
  fun w => Some (tt, mkWorld (current_state w) (current_operations w)
                             (stdout w ++ [p])).

Definition out_of_fuel {A} : M A := fun _ => None.

(** ** The standard algorithms the source calls *)

(** [std::find(begin(l), end(l), x)]: the position of the first element
    equal to [x], or [length l], the position of [std::end(l)]. *)
Fixpoint std_find (l : list Condition) (x : Condition) : nat :=
  match l with
  | [] => 0
  | y :: l' => if decide (y = x) then 0 else S (std_find l' x)
  end.

Definition std_end (l : list Condition) : nat := length l.

(** [std::all_of] with an effectful predicate: elements are tried in
    order and the scan stops at the first one rejected. *)
Fixpoint all_of {A} (p : A -> M bool) (l : list A) : M bool :=
  match l with
  | [] => ret true
  | x :: l' => b <- p x ;; if b then all_of p l' else ret false
  end.

(** [std::any_of]: the scan stops at the first element accepted. *)
Fixpoint any_of {A} (p : A -> M bool) (l : list A) : M bool :=
  match l with
  | [] => ret false
  | x :: l' => b <- p x ;; if b then ret true else any_of p l'
  end.

(** [l.push_back(x)] *)
Definition push_back {A} (l : list A) (x : A) : list A := l ++ [x].

(** ** The functions of gps.cpp *)

Definition complement {T} (fn : T -> bool) : T -> bool :=
  fun x => negb (fn x).

Definition appropriate_p (goal : Condition) (op : Op) : bool :=
  negb (std_end (add_list op) =? std_find (add_list op) goal)%nat.

Definition find_all (goal : Condition) (ops : list Op)
    (pred : Condition -> Op -> bool) : list Op :=
  foldl (fun res elt => if pred goal elt then push_back res elt else res)
        [] ops.

Definition set_diff (set1 set2 : list Condition) : list Condition :=
  let ending := std_end set2 in
  foldl (fun res elt =>
           if (std_find set2 elt =? ending)%nat then push_back res elt
           else res)
        [] set1.

Definition set_union (set1 set2 : list Condition) : list Condition :=
  let res := foldl (fun res elt => push_back res elt) [] set1 in
  let ending := std_end set2 in
  foldl (fun res elt =>
           if (std_find set2 elt =? ending)%nat then push_back res elt
           else res)
        res set2.

(** [apply_op], with the [achieve] it calls as a parameter. *)
Definition apply_op_with (achieve : Condition -> M bool) (op : Op) : M bool :=
  ok <- all_of achieve (preconds op) ;;
  if ok then
    printf (Executing (action op)) ;;
    (s <- get_state ;; set_state (set_diff s (del_list op))) ;;
    (s <- get_state ;; set_state (set_union s (add_list op))) ;;
    ret true
  else ret false.

(** [achieve]; each nested call of [achieve] uses one unit of fuel. *)
Fixpoint achieve (fuel : nat) (goal : Condition) : M bool :=
  match fuel with
  | O => out_of_fuel
  | S fuel' =>
      s <- get_state ;;
      let left := negb (std_end s =? std_find s goal)%nat in
      ops <- get_operations ;;
      let candidates := find_all goal ops appropriate_p in
      right <- any_of (apply_op_with (achieve fuel')) candidates ;;
      ret (left || right)
  end.

Definition apply_op (fuel : nat) (op : Op) : M bool :=
  apply_op_with (achieve fuel) op.

(** [GPS]: the parameters [state] and [ops] are never read. *)
Definition GPS (fuel : nat) (state : list Condition) (goals : list Condition)
    (ops : list Op) : M unit :=
  ok <- all_of (achieve fuel) goals ;;
  if ok then printf Solved else printf Failed.

(** *** main *)

Definition son_at_home : Condition := "son-at-home".
Definition car_works : Condition := "car-works".
Definition son_at_school : Condition := "son-at-school".
Definition car_needs_battery : Condition := "car-needs-battery".
Definition shop_knows_problem : Condition := "shop-knows-problem".
Definition shop_has_money : Condition := "shop-has-money".
Definition know_phone_number : Condition := "know-phone-number".
Definition in_communication_with_shop : Condition :=
  "in-communication-with-shop".
Definition have_phone_book : Condition := "have-phone-book".
Definition have_money : Condition := "have-money".

Definition drive_son_to_school : Op :=
  mkOp "drive-son-to-school" [son_at_home; car_works] [son_at_school]
       [son_at_home].
Definition shop_installs_battery : Op :=
  mkOp "shop-installs-battery"
       [car_needs_battery; shop_knows_problem; shop_has_money]
       [car_works] [].
Definition tell_shop_problem : Op :=
  mkOp "tell-shop-problem" [in_communication_with_shop]
       [shop_knows_problem] [].
Definition telephone_shop : Op :=
  mkOp "telephone-shop" [know_phone_number] [in_communication_with_shop] [].
Definition look_up_number : Op :=
  mkOp "look-up-number" [have_phone_book] [know_phone_number] [].
Definition give_shop_money : Op :=
  mkOp "give-shop-money" [have_money] [shop_has_money] [have_money].

(** The value [main] assigns to [current_operations]. *)
Definition school_ops : list Op :=
  [ drive_son_to_school; shop_installs_battery; tell_shop_problem;
    telephone_shop; look_up_number; give_shop_money ].

(** The value [main] assigns to [current_state]. *)
Definition school_state : list Condition :=
  [son_at_home; car_needs_battery; have_money; have_phone_book].

Definition bool_to_int (b : bool) : Z := if b then 1%Z else 0%Z.

(** The world before [main] runs: the globals are empty lists. *)
Definition world0 : World := mkWorld [] [] [].

Definition main (fuel : nat) : M Z :=
  let even_p := fun n : Z => (n mod 2 =? 0)%Z in
  let odd_p := complement even_p in
  printf (IsEven (bool_to_int (negb (odd_p 2%Z)))) ;;
  set_state school_state ;;
  set_operations school_ops ;;
  s <- get_state ;;
  o <- get_operations ;;
  GPS fuel s [son_at_school] o ;;
  ret 0%Z.

(** *** Other worlds used below *)

Definition school_world : World := mkWorld school_state school_ops [].

(** The world in which the son-to-school run ends. *)
Definition school_final : World :=
  mkWorld [car_needs_battery; have_phone_book] school_ops
    [Executing "look-up-number"; Executing "telephone-shop";
     Executing "tell-shop-problem"; Executing "give-shop-money";
     Executing "shop-installs-battery";
     Executing "drive-son-to-school"; Solved].

Definition phone_book_world : World := mkWorld [have_phone_book] school_ops [].

Definition paid_world : World :=
  mkWorld [have_money; shop_has_money] school_ops [].

Definition battery_charged : Condition := "battery-charged".

Definition recharge_battery : Op :=
  mkOp "recharge-battery" [] [battery_charged] [battery_charged].

Definition charged_world : World :=
  mkWorld [battery_charged] [recharge_battery] [].

Definition stay_at_home : Op :=
  mkOp "stay-at-home" [son_at_home] [son_at_home] [].

Definition home_world : World := mkWorld [son_at_home] [stay_at_home] [].

(** ** What the spec calls difference, union and contains *)

(** Reference definitions in the spec's words, to compare with the loops
    of the source: the elements of [A] not present in [B], in [A]'s
    order; and [A]'s elements followed by the elements of [B] that are
    new to the result. *)
Definition difference (A B : list Condition) : list Condition :=
  filter (fun x => x ∉ B) A.

Fixpoint add_novel (res B : list Condition) : list Condition :=
  match B with
  | [] => res
  | x :: B' => add_novel (if decide (x ∈ res) then res else res ++ [x]) B'
  end.

Definition union (A B : list Condition) : list Condition := add_novel A B.

(** ** Relations between computations and between worlds *)

(** [m'] returns whatever [m] returns: used to compare two amounts of
    fuel. *)
Definition refines {A} (m m' : M A) : Prop :=
  forall w r, m w = Some r -> m' w = Some r.

(** [evolves w w']: the state of [w'] is a subsequence of the state of
    [w], the operations are the same, and the output of [w'] extends
    the output of [w]. *)
Record evolves (w w' : World) : Prop := mkEvolves {
  evolves_state : current_state w' `sublist_of` current_state w;
  evolves_operations : current_operations w' = current_operations w;
  evolves_stdout : stdout w `prefix_of` stdout w'
}.

(** [emits lib w w']: when the library of [w] is [lib], so is the
    library of [w'], and the output of [w'] is the output of [w]
    followed by one [Executing] record for each operation of a list of
    operations of [lib]. *)
Definition emits (lib : list Op) (w w' : World) : Prop :=
  current_operations w = lib ->
  current_operations w' = lib
  /\ exists l : list Op,
       l ⊆ lib
       /\ stdout w' = (stdout w ++ map (fun op => Executing (action op)) l)%list.

(** A library is stratified by [rank] when every precondition of an
    operation ranks below everything the operation adds. *)
Definition stratified (rank : Condition -> nat) (lib : list Op) : Prop :=
  Forall (fun op =>
            Forall (fun p => Forall (fun g => rank p < rank g) (add_list op))
                   (preconds op))
         lib.

(** A rank for the conditions of the son-to-school library. *)
Definition school_rank (c : Condition) : nat :=
  if decide (c = son_at_school) then 5
  else if decide (c = car_works) then 4
  else if decide (c = shop_knows_problem) then 3
  else if decide (c = in_communication_with_shop) then 2
  else if decide (c = know_phone_number) then 1
  else if decide (c = shop_has_money) then 1
  else 0.

(** * Properties *)

(** ** std::find and the push_back loops *)

Lemma std_find_le l x : std_find l x <= length l.
Proof.
  induction l as [|y l IH]; simpl; [lia|].
  destruct (decide (y = x)); lia.
Qed.

Lemma std_find_end l x : std_find l x = std_end l <-> x ∉ l.
Proof.
  unfold std_end. induction l as [|y l IH]; simpl.
  - split; [intros _; apply not_elem_of_nil | done].
  - destruct (decide (y = x)) as [->|Hne].
    + split; [discriminate | intros []; left].
    + rewrite not_elem_of_cons. split.
      * intros [= H]. split; [congruence | by apply IH].
      * intros [_ H]. f_equal. by apply IH.
Qed.

Lemma std_find_eqb_end l x :
  (std_find l x =? std_end l)%nat = bool_decide (x ∉ l).
Proof.
  destruct (Nat.eqb_spec (std_find l x) (std_end l)) as [H|H].
  - symmetry. apply bool_decide_eq_true. by apply std_find_end.
  - symmetry. apply bool_decide_eq_false. by rewrite <- std_find_end.
Qed.

Lemma std_end_eqb_find l x :
  negb (std_end l =? std_find l x)%nat = bool_decide (x ∈ l).
Proof.
  rewrite Nat.eqb_sym, std_find_eqb_end.
  destruct (decide (x ∈ l)) as [H|H].
  - rewrite (bool_decide_eq_true_2 _ H).
    rewrite bool_decide_eq_false_2; [done | by intros []].
  - rewrite (bool_decide_eq_false_2 _ H).
    by rewrite bool_decide_eq_true_2.
Qed.

(** A loop that pushes the accepted elements at the back of [res]
    appends the filtered list. *)
Lemma foldl_push_back_filter {A} (f : A -> bool) (l res : list A) :
  foldl (fun res elt => if f elt then push_back res elt else res) res l
  = (res ++ filter (fun x => Is_true (f x)) l)%list.
Proof.
  revert res. induction l as [|x l IH]; intros res; simpl.
  - by rewrite app_nil_r.
  - rewrite IH. unfold push_back. destruct (f x) eqn:E.
    + rewrite filter_cons_True by (rewrite E; exact I).
      by rewrite <- app_assoc.
    + rewrite filter_cons_False by (rewrite E; exact id).
      done.
Qed.

Lemma foldl_push_back_all {A} (l res : list A) :
  foldl (fun res elt => push_back res elt) res l = (res ++ l)%list.
Proof.
  revert res. induction l as [|x l IH]; intros res; simpl.
  - by rewrite app_nil_r.
  - rewrite IH. unfold push_back. by rewrite <- app_assoc.
Qed.

Lemma appropriate_p_spec goal op :
  appropriate_p goal op = bool_decide (goal ∈ add_list op).
Proof. apply std_end_eqb_find. Qed.

Lemma find_all_appropriate goal ops :
  find_all goal ops appropriate_p
  = filter (fun op => goal ∈ add_list op) ops.
Proof.
  unfold find_all. rewrite foldl_push_back_filter. simpl.
  apply list_filter_iff. intros op.
  rewrite appropriate_p_spec. apply bool_decide_spec.
Qed.

Lemma set_diff_filter set1 set2 :
  set_diff set1 set2 = filter (fun x => x ∉ set2) set1.
Proof.
  unfold set_diff.
  rewrite (foldl_push_back_filter (fun elt => (std_find set2 elt =? std_end set2)%nat)).
  simpl. apply list_filter_iff. intros x.
  rewrite std_find_eqb_end. apply bool_decide_spec.
Qed.

Lemma set_diff_nil_r s : set_diff s [] = s.
Proof.
  rewrite set_diff_filter. induction s as [|x s IH]; [done|].
  rewrite filter_cons_True by apply not_elem_of_nil. by rewrite IH.
Qed.

Lemma set_diff_covered set1 set2 : set1 ⊆ set2 -> set_diff set1 set2 = [].
Proof.
  rewrite set_diff_filter. induction set1 as [|x s IH]; intros Hsub; [done|].
  rewrite filter_cons_False.
  - apply IH. intros y Hy. apply Hsub. by right.
  - intros Hx. apply Hx, Hsub. left.
Qed.

Lemma set_diff_sublist set1 set2 : set_diff set1 set2 `sublist_of` set1.
Proof. rewrite set_diff_filter. apply sublist_filter. Qed.

(** The second loop of [set_union] looks every element of [set2] up in
    [set2] itself, finds it, and so pushes nothing. *)
Lemma set_union_second_loop set2 res l :
  l ⊆ set2 ->
  foldl (fun res elt =>
           if (std_find set2 elt =? std_end set2)%nat then push_back res elt
           else res) res l = res.
Proof.
  revert res. induction l as [|x l IH]; intros res Hsub; simpl; [done|].
  rewrite std_find_eqb_end.
  rewrite bool_decide_eq_false_2.
  - apply IH. intros y Hy. apply Hsub. by right.
  - intros Hx. apply Hx, Hsub. left.
Qed.

Lemma set_union_first set1 set2 : set_union set1 set2 = set1.
Proof.
  unfold set_union. rewrite set_union_second_loop by done.
  by rewrite foldl_push_back_all.
Qed.

(** ** Reasoning in the monad *)

Lemma bind_Some {A B} (m : M A) (k : A -> M B) w r :
  bind m k w = Some r <-> exists a w1, m w = Some (a, w1) /\ k a w1 = Some r.
Proof.
  unfold bind. destruct (m w) as [[a w1]|]; split.
  - intros H. by exists a, w1.
  - by intros (? & ? & [= -> ->] & H).
  - discriminate.
  - by intros (? & ? & ? & _).
Qed.

(** Decompose a hypothesis saying that a sequence of steps returned. *)
Ltac inv_M H :=
  repeat match type of H with
  | bind _ _ _ = Some _ =>
      let a := fresh "a" in let w := fresh "w" in let H1 := fresh "H" in
      apply bind_Some in H; destruct H as (a & w & H1 & H);
      try inv_M H1
  | ret _ _ = Some _ => unfold ret in H; simplify_eq H; intros; subst
  | get_state _ = Some _ => unfold get_state in H; simplify_eq H; intros; subst
  | get_operations _ = Some _ =>
      unfold get_operations in H; simplify_eq H; intros; subst
  | set_state _ _ = Some _ => unfold set_state in H; simplify_eq H; intros; subst
  | printf _ _ = Some _ => unfold printf in H; simplify_eq H; intros; subst
  | out_of_fuel _ = Some _ => discriminate H
  end.

(** Settle a closed decidable proposition by evaluation. *)
Ltac by_decide := apply (bool_decide_unpack _); vm_compute; exact I.

Lemma refines_refl {A} (m : M A) : refines m m.
Proof. by intros w r H. Qed.

Lemma refines_bind {A B} (m m' : M A) (k k' : A -> M B) :
  refines m m' -> (forall a, refines (k a) (k' a)) ->
  refines (bind m k) (bind m' k').
Proof.
  intros Hm Hk w r H. apply bind_Some in H as (a & w1 & H1 & H2).
  apply bind_Some. exists a, w1. split; [by apply Hm | by apply Hk].
Qed.

Lemma refines_all_of {A} (p p' : A -> M bool) (l : list A) :
  (forall x, refines (p x) (p' x)) -> refines (all_of p l) (all_of p' l).
Proof.
  intros Hp. induction l as [|x l IH]; simpl; [apply refines_refl|].
  apply refines_bind; [apply Hp|]. intros []; [apply IH | apply refines_refl].
Qed.

Lemma refines_any_of {A} (p p' : A -> M bool) (l : list A) :
  (forall x, refines (p x) (p' x)) -> refines (any_of p l) (any_of p' l).
Proof.
  intros Hp. induction l as [|x l IH]; simpl; [apply refines_refl|].
  apply refines_bind; [apply Hp|]. intros []; [apply refines_refl | apply IH].
Qed.

Lemma refines_apply_op_with (ach ach' : Condition -> M bool) op :
  (forall g, refines (ach g) (ach' g)) ->
  refines (apply_op_with ach op) (apply_op_with ach' op).
Proof.
  intros Hach. unfold apply_op_with.
  apply refines_bind; [by apply refines_all_of|].
  intros a. apply refines_refl.
Qed.

(** More fuel never changes a result. *)
Lemma achieve_fuel_S fuel goal : refines (achieve fuel goal) (achieve (S fuel) goal).
Proof.
  revert goal. induction fuel as [|fuel IH]; intros goal.
  - intros w r H. discriminate H.
  - change (achieve (S fuel) goal) with
      (s <- get_state ;;
       ops <- get_operations ;;
       right <- any_of (apply_op_with (achieve fuel))
                       (find_all goal ops appropriate_p) ;;
       ret (negb (std_end s =? std_find s goal)%nat || right)).
    change (achieve (S (S fuel)) goal) with
      (s <- get_state ;;
       ops <- get_operations ;;
       right <- any_of (apply_op_with (achieve (S fuel)))
                       (find_all goal ops appropriate_p) ;;
       ret (negb (std_end s =? std_find s goal)%nat || right)).
    apply refines_bind; [apply refines_refl|]. intros s.
    apply refines_bind; [apply refines_refl|]. intros ops.
    apply refines_bind; [|intros; apply refines_refl].
    apply refines_any_of. intros op. by apply refines_apply_op_with.
Qed.

Lemma achieve_fuel_mono n m goal :
  n <= m -> refines (achieve n goal) (achieve m goal).
Proof.
  induction 1 as [|m Hle IH]; [apply refines_refl|].
  intros w r H. by apply achieve_fuel_S, IH.
Qed.

Lemma apply_op_fuel_mono n m op :
  n <= m -> refines (apply_op n op) (apply_op m op).
Proof.
  intros Hle. apply refines_apply_op_with.
  intros g. by apply achieve_fuel_mono.
Qed.

Lemma GPS_fuel_mono n m state goals ops :
  n <= m -> refines (GPS n state goals ops) (GPS m state goals ops).
Proof.
  intros Hle. unfold GPS. apply refines_bind; [|intros; apply refines_refl].
  apply refines_all_of. intros g. by apply achieve_fuel_mono.
Qed.

Lemma main_fuel_mono n m : n <= m -> refines (main n) (main m).
Proof.
  intros Hle. unfold main.
  repeat (apply refines_bind; [apply refines_refl|]; intros ?).
  apply refines_bind; [by apply GPS_fuel_mono | intros; apply refines_refl].
Qed.

(** ** How a call can change the world *)

#[local] Instance evolves_preorder : PreOrder evolves.
Proof.
  split.
  - intros w. by split.
  - intros w1 w2 w3 [] []. split; [by etrans | congruence | by etrans].
Qed.

Section Invariant.
Context (R : World -> World -> Prop) `{!PreOrder R}.

Lemma all_of_preserves {A} (p : A -> M bool) (l : list A) :
  (forall x w b w', p x w = Some (b, w') -> R w w') ->
  forall w b w', all_of p l w = Some (b, w') -> R w w'.
Proof.
  intros Hp. induction l as [|x l IH]; simpl; intros w b w' H.
  - inv_M H. reflexivity.
  - apply bind_Some in H as ([] & w1 & H1 & H2).
    + etrans; [by eapply Hp | by eapply IH].
    + inv_M H2. by eapply Hp.
Qed.

Lemma any_of_preserves {A} (p : A -> M bool) (l : list A) :
  (forall x w b w', p x w = Some (b, w') -> R w w') ->
  forall w b w', any_of p l w = Some (b, w') -> R w w'.
Proof.
  intros Hp. induction l as [|x l IH]; simpl; intros w b w' H.
  - inv_M H. reflexivity.
  - apply bind_Some in H as ([] & w1 & H1 & H2).
    + inv_M H2. by eapply Hp.
    + etrans; [by eapply Hp | by eapply IH].
Qed.
End Invariant.

(** The three statements that [apply_op] runs once the preconditions
    hold: the print and the two assignments to [current_state]. *)
Lemma apply_op_with_Some ach op w b w' :
  apply_op_with ach op w = Some (b, w') <->
  exists w1,
    all_of ach (preconds op) w = Some (b, w1) /\
    w' = if b then
           mkWorld (set_union (set_diff (current_state w1) (del_list op))
                              (add_list op))
                   (current_operations w1)
                   (stdout w1 ++ [Executing (action op)])
         else w1.
Proof.
  unfold apply_op_with. rewrite bind_Some. split.
  - intros ([] & w1 & H1 & H2); exists w1.
    + inv_M H2. by simplify_eq/=.
    + by inv_M H2.
  - intros (w1 & H1 & ->). exists b, w1. split; [done|]. by destruct b.
Qed.

Lemma apply_op_with_evolves ach op :
  (forall g w b w', ach g w = Some (b, w') -> evolves w w') ->
  forall w b w', apply_op_with ach op w = Some (b, w') -> evolves w w'.
Proof.
  intros Hach w b w' H. apply apply_op_with_Some in H as (w1 & H1 & ->).
  assert (evolves w w1) as Hev by (by eapply (all_of_preserves evolves)).
  destruct b; [|done]. etrans; [exact Hev|].
  split; simpl; [|done|by apply prefix_app_r].
  rewrite set_union_first. apply set_diff_sublist.
Qed.

Lemma achieve_evolves fuel :
  forall goal w b w', achieve fuel goal w = Some (b, w') -> evolves w w'.
Proof.
  induction fuel as [|fuel IH]; intros goal w b w' H; [discriminate H|].
  simpl in H. inv_M H.
  eapply (any_of_preserves evolves); [|eassumption].
  intros op. by apply apply_op_with_evolves.
Qed.

Lemma apply_op_evolves fuel op w b w' :
  apply_op fuel op w = Some (b, w') -> evolves w w'.
Proof. apply apply_op_with_evolves, achieve_evolves. Qed.

Lemma GPS_evolves fuel state goals ops w u w' :
  GPS fuel state goals ops w = Some (u, w') -> evolves w w'.
Proof.
  unfold GPS. intros H. apply bind_Some in H as (ok & w1 & H1 & H2).
  etrans.
  - eapply (all_of_preserves evolves); [apply achieve_evolves | exact H1].
  - destruct ok; inv_M H2; (split; simpl; [done|done|by apply prefix_app_r]).
Qed.

(** ** The set primitives *)

(** C7: [set_diff A B] is exactly the elements of [A] not present in
    [B], in [A]'s order (it equals the reference [difference], its
    members are the members of [A] outside [B], and it is a subsequence
    of [A]); [set_diff A A] is empty, and an empty [A] gives an empty
    result whatever [B] is. *)
Theorem set_diff_is_difference (A B : list Condition) :
  set_diff A B = difference A B
  /\ (forall x, x ∈ set_diff A B <-> x ∈ A /\ x ∉ B)
  /\ set_diff A B `sublist_of` A
  /\ set_diff A A = []
  /\ set_diff [] B = []
  /\ set_diff [] [] = [].
Proof.
  split_and!.
  - apply set_diff_filter.
  - intros x. rewrite set_diff_filter, list_elem_of_filter. tauto.
  - apply set_diff_sublist.
  - by apply set_diff_covered.
  - reflexivity.
  - reflexivity.
Qed.

(** C8: [set_union s1 s2] is [s1], element for element; hence a call of
    [apply_op] that returns leaves in [current_state] what [set_diff]
    left of the state reached after the preconditions, and every
    condition of the new state was in the state before the call: the
    add-list contributes nothing. *)
Theorem set_union_returns_first (s1 s2 : list Condition)
    (fuel : nat) (op : Op) (w w' : World) (b : bool) :
  set_union s1 s2 = s1
  /\ (apply_op fuel op w = Some (b, w') ->
      (exists w1,
         all_of (achieve fuel) (preconds op) w = Some (b, w1) /\
         current_state w' =
           if b then set_diff (current_state w1) (del_list op)
           else current_state w1)
      /\ forall c, c ∈ current_state w' -> c ∈ current_state w).
Proof.
  split; [apply set_union_first|]. intros H. split.
  - apply apply_op_with_Some in H as (w1 & H1 & ->). exists w1.
    split; [done|]. destruct b; [|done]. simpl. apply set_union_first.
  - apply apply_op_evolves in H as [Hs _ _]. by apply sublist_subseteq.
Qed.

Lemma set_union_returns_first_witness :
  let w' := mkWorld [have_phone_book] school_ops
                    [Executing "look-up-number"] in
  apply_op 1 look_up_number phone_book_world = Some (true, w')
  /\ set_union [have_phone_book] [know_phone_number] = [have_phone_book]
  /\ (exists w1,
        all_of (achieve 1) (preconds look_up_number) phone_book_world
          = Some (true, w1)
        /\ current_state w'
           = set_diff (current_state w1) (del_list look_up_number))
  /\ forall c, c ∈ current_state w' -> c ∈ current_state phone_book_world.
Proof.
  intros w'.
  assert (apply_op 1 look_up_number phone_book_world = Some (true, w')) as H
    by (vm_compute; reflexivity).
  destruct (set_union_returns_first [have_phone_book] [know_phone_number]
              1 look_up_number phone_book_world w' true) as [H1 H2].
  destruct (H2 H) as [H3 H4].
  split; [exact H|]. split; [exact H1|]. split; [exact H3 | exact H4].
Defined.

(** C4, as the code has it: [set_union] does not contain the elements of
    its second argument.  With the state [have-phone-book] and the
    add-list of look-up-number the result lacks know-phone-number, which
    the reference [union] has; with an empty first argument the result
    is empty. *)
Theorem set_union_misses_second :
  set_union [have_phone_book] [know_phone_number] = [have_phone_book]
  /\ (know_phone_number ∉ set_union [have_phone_book] [know_phone_number])
  /\ union [have_phone_book] [know_phone_number]
     = [have_phone_book; know_phone_number]
  /\ set_union [] [know_phone_number] = [].
Proof.
  split_and!; try reflexivity.
  rewrite set_union_first. by_decide.
Qed.

(** ** apply_op and achieve *)

(** C1, as the code has it: a successful [apply_op] removes the deletes
    but adds nothing.  After look-up-number is applied in the state
    [have-phone-book], know-phone-number, the only element of its
    add-list, is not in the state; and a condition that is both in the
    del-list and in the add-list of an operation is absent afterwards. *)
Theorem apply_op_adds_nothing :
  apply_op 1 look_up_number phone_book_world
    = Some (true, mkWorld [have_phone_book] school_ops
                          [Executing "look-up-number"])
  /\ know_phone_number ∈ add_list look_up_number
  /\ (know_phone_number ∉ [have_phone_book])
  /\ apply_op 1 recharge_battery charged_world
     = Some (true, mkWorld [] [recharge_battery]
                           [Executing "recharge-battery"])
  /\ battery_charged ∈ add_list recharge_battery
  /\ battery_charged ∈ del_list recharge_battery.
Proof.
  split_and!; try reflexivity; by_decide.
Qed.

(** C2, as the code has it: [achieve] evaluates the candidates even when
    the goal is already in the state.  With have-money and
    shop-has-money both true, achieving shop-has-money executes
    give-shop-money: one trace record, and have-money leaves the state. *)
Theorem achieve_satisfied_goal_runs_candidates :
  shop_has_money ∈ current_state paid_world
  /\ achieve 2 shop_has_money paid_world
     = Some (true, mkWorld [shop_has_money] school_ops
                           [Executing "give-shop-money"]).
Proof.
  split; [by_decide | reflexivity].
Qed.

(** A goal that is already in the state need not even return: with an
    operation that both requires and adds it, the candidates are tried
    without end, whatever the fuel. *)
Lemma achieve_satisfied_goal_may_not_return fuel :
  son_at_home ∈ current_state home_world
  /\ achieve fuel son_at_home home_world = None.
Proof.
  split; [by_decide|].
  induction fuel as [|fuel IH]; [done|].
  cbn [achieve]. unfold bind at 1 2 3. cbn [get_state get_operations].
  change (find_all son_at_home (current_operations home_world) appropriate_p)
    with [stay_at_home].
  cbn [any_of]. unfold bind at 1, apply_op_with at 1, bind at 1.
  cbn [preconds stay_at_home all_of]. unfold bind at 1.
  by rewrite IH.
Qed.

(** C5, as the code has it: a second [achieve] of a goal that the first
    call reported achieved emits the trace again.  In the state
    [have-phone-book], achieving know-phone-number executes
    look-up-number and returns true; the goal is still not in the state,
    and the second call executes look-up-number once more. *)
Theorem achieve_twice_repeats_trace :
  let w1 := mkWorld [have_phone_book] school_ops
                    [Executing "look-up-number"] in
  let w2 := mkWorld [have_phone_book] school_ops
                    [Executing "look-up-number"; Executing "look-up-number"] in
  achieve 2 know_phone_number phone_book_world = Some (true, w1)
  /\ trace w1 = ["look-up-number"]
  /\ achieve 2 know_phone_number w1 = Some (true, w2)
  /\ trace w2 = ["look-up-number"; "look-up-number"].
Proof. by split_and!. Qed.

(** C6: when the goal is not in the state and no operation of the
    library has it in its add-list, [achieve] returns false, with any
    fuel at all, and leaves the world as it was: state, operations and
    output. *)
Theorem achieve_no_candidate (fuel : nat) (goal : Condition) (w : World) :
  goal ∉ current_state w ->
  Forall (fun op => goal ∉ add_list op) (current_operations w) ->
  achieve (S fuel) goal w = Some (false, w).
Proof.
  intros Hstate Hops. cbn [achieve]. unfold bind at 1 2. cbn [get_state get_operations].
  rewrite find_all_appropriate.
  replace (filter (fun op => goal ∈ add_list op) (current_operations w))
    with (@nil Op).
  - cbn [any_of]. unfold bind, ret.
    rewrite std_end_eqb_find, bool_decide_eq_false_2 by done. done.
  - symmetry. induction Hops as [|op ops Hop Hops IH]; [done|].
    by rewrite filter_cons_False.
Qed.

Lemma achieve_no_candidate_witness :
  (have_money ∉ current_state home_world)
  /\ Forall (fun op => have_money ∉ add_list op)
            (current_operations home_world)
  /\ achieve 1 have_money home_world = Some (false, home_world).
Proof.
  assert (have_money ∉ current_state home_world) as H1 by by_decide.
  assert (Forall (fun op => have_money ∉ add_list op)
                 (current_operations home_world)) as H2 by by_decide.
  split; [exact H1|]. split; [exact H2|].
  exact (achieve_no_candidate 0 have_money home_world H1 H2).
Defined.

(** C9: the state never grows.  Whenever a call of [achieve], of
    [apply_op] or of [GPS] returns, the [current_state] it leaves is a
    subsequence, and so a subset, of the one it started from. *)
Theorem world_state_never_grows (fuel : nat) (w w' : World) :
  (exists goal b, achieve fuel goal w = Some (b, w'))
  \/ (exists op b, apply_op fuel op w = Some (b, w'))
  \/ (exists state goals ops u, GPS fuel state goals ops w = Some (u, w')) ->
  current_state w' `sublist_of` current_state w
  /\ current_state w' ⊆ current_state w.
Proof.
  intros H.
  assert (evolves w w') as [Hs _ _].
  { destruct H as [(goal & b & H)|[(op & b & H)|(st & gs & ops & u & H)]].
    - by eapply achieve_evolves.
    - by eapply apply_op_evolves.
    - by eapply GPS_evolves. }
  split; [done | by apply sublist_subseteq].
Qed.

Lemma world_state_never_grows_witness :
  GPS 6 school_state [son_at_school] school_ops school_world
    = Some (tt, school_final)
  /\ current_state school_final `sublist_of` current_state school_world
  /\ current_state school_final ⊆ current_state school_world.
Proof.
  assert (GPS 6 school_state [son_at_school] school_ops school_world
          = Some (tt, school_final)) as H by (vm_compute; reflexivity).
  split; [exact H|].
  apply (world_state_never_grows 6 school_world school_final).
  right. right. exists school_state, [son_at_school], school_ops, tt.
  exact H.
Defined.

(** ** The driver *)

(** C10: [GPS] does not read its [state] and [ops] arguments.  From the
    same world (the same globals and output so far) and with the same
    goals, two calls that differ in these arguments have the same
    result: the same printed outcome, trace and final [current_state],
    or both run out of fuel. *)
Theorem GPS_ignores_state_and_ops (fuel : nat)
    (state1 state2 goals : list Condition) (ops1 ops2 : list Op) (w : World) :
  GPS fuel state1 goals ops1 w = GPS fuel state2 goals ops2 w.
Proof. reflexivity. Qed.

(** The arguments are not a substitute for the globals either: with the
    son-to-school state and library passed as arguments but empty
    globals, the run fails. *)
Lemma GPS_reads_globals_only :
  GPS 1 school_state [son_at_school] school_ops world0
  = Some (tt, mkWorld [] [] [Failed]).
Proof. reflexivity. Qed.

(** C3: the son-to-school problem of [main].  With fuel for the six
    nested calls of [achieve], [GPS] from the initial state and library
    prints the six operations in the order look-up-number,
    telephone-shop, tell-shop-problem, give-shop-money,
    shop-installs-battery, drive-son-to-school and then SOLVED; [main]
    returns 0 after the same output, preceded by its first line. *)
Theorem son_to_school_solved (fuel : nat) :
  6 <= fuel ->
  GPS fuel school_state [son_at_school] school_ops school_world
    = Some (tt, school_final)
  /\ stdout school_final =
       [Executing "look-up-number"; Executing "telephone-shop";
        Executing "tell-shop-problem"; Executing "give-shop-money";
        Executing "shop-installs-battery";
        Executing "drive-son-to-school"; Solved]
  /\ trace school_final =
       ["look-up-number"; "telephone-shop"; "tell-shop-problem";
        "give-shop-money"; "shop-installs-battery"; "drive-son-to-school"]
  /\ main fuel world0
     = Some (0%Z, mkWorld (current_state school_final) school_ops
                          (IsEven 1 :: stdout school_final)).
Proof.
  intros Hfuel. split_and!.
  - apply (GPS_fuel_mono 6 fuel _ _ _ Hfuel). vm_compute. reflexivity.
  - reflexivity.
  - vm_compute. reflexivity.
  - apply (main_fuel_mono 6 fuel Hfuel). vm_compute. reflexivity.
Qed.

(** The text that [main] writes. *)
Lemma main_printed :
  exists w, main 6 world0 = Some (0%Z, w)
  /\ printed w =
       "2 is even: 1" ++ nl ++
       "Executing operation: look-up-number." ++ nl ++
       "Executing operation: telephone-shop." ++ nl ++
       "Executing operation: tell-shop-problem." ++ nl ++
       "Executing operation: give-shop-money." ++ nl ++
       "Executing operation: shop-installs-battery." ++ nl ++
       "Executing operation: drive-son-to-school." ++ nl ++
       "SOLVED." ++ nl.
Proof. eexists. split; vm_compute; reflexivity. Qed.

Lemma son_to_school_solved_witness :
  6 <= 6
  /\ GPS 6 school_state [son_at_school] school_ops school_world
     = Some (tt, school_final)
  /\ stdout school_final =
       [Executing "look-up-number"; Executing "telephone-shop";
        Executing "tell-shop-problem"; Executing "give-shop-money";
        Executing "shop-installs-battery";
        Executing "drive-son-to-school"; Solved]
  /\ trace school_final =
       ["look-up-number"; "telephone-shop"; "tell-shop-problem";
        "give-shop-money"; "shop-installs-battery"; "drive-son-to-school"]
  /\ main 6 world0
     = Some (0%Z, mkWorld (current_state school_final) school_ops
                          (IsEven 1 :: stdout school_final)).
Proof.
  split; [lia | apply (son_to_school_solved 6); lia].
Defined.

(** * Further properties of the functions of gps.cpp *)

(** ** complement, appropriate_p, find_all *)

(** X1: [complement] negates a predicate pointwise, and complementing
    twice gives back the predicate: [complement fn] never agrees with
    [fn], and [complement (complement fn)] always does. *)
Theorem complement_involutive {T} (fn : T -> bool) (x : T) :
  complement fn x <> fn x /\ complement (complement fn) x = fn x.
Proof.
  unfold complement. destruct (fn x); split; done.
Qed.

(** X2: [appropriate_p goal op] is true exactly when [goal] occurs in
    the add-list of [op]; the preconditions and the del-list play no
    part. *)
Theorem appropriate_p_iff (goal : Condition) (op : Op) :
  appropriate_p goal op = true <-> goal ∈ add_list op.
Proof.
  rewrite appropriate_p_spec. apply bool_decide_eq_true.
Qed.

Lemma find_all_filter goal ops (pred : Condition -> Op -> bool) :
  find_all goal ops pred = filter (fun op => Is_true (pred goal op)) ops.
Proof. unfold find_all. by rewrite foldl_push_back_filter. Qed.

(** X3: [find_all] returns, in the order of [ops] and with repetitions
    kept, exactly the operations that [pred] accepts for the goal: the
    result is a subsequence of [ops], its members are the accepted
    members of [ops], and the result of a concatenation is the
    concatenation of the results. *)
Theorem find_all_selects (goal : Condition) (ops ops' : list Op)
    (pred : Condition -> Op -> bool) :
  find_all goal ops pred `sublist_of` ops
  /\ (forall op, op ∈ find_all goal ops pred <->
                 op ∈ ops /\ pred goal op = true)
  /\ find_all goal (ops ++ ops') pred
     = (find_all goal ops pred ++ find_all goal ops' pred)%list.
Proof.
  rewrite !find_all_filter. split_and!.
  - apply sublist_filter.
  - intros op. rewrite list_elem_of_filter, Is_true_true. tauto.
  - apply filter_app.
Qed.

(** X4: the candidates for a goal are empty exactly when no operation of
    the library has the goal in its add-list. *)
Theorem find_all_no_candidate (goal : Condition) (ops : list Op) :
  find_all goal ops appropriate_p = []
  <-> Forall (fun op => goal ∉ add_list op) ops.
Proof.
  rewrite find_all_appropriate. induction ops as [|op ops IH].
  - split; [intros _; constructor | done].
  - rewrite Forall_cons, filter_cons. destruct (decide (goal ∈ add_list op)).
    + split; [discriminate | intros [Hn _]; by destruct Hn].
    + rewrite IH. tauto.
Qed.

(** ** set_diff *)

(** X5: [set_diff] works element by element on its first argument: the
    difference of a concatenation is the concatenation of the
    differences. *)
Theorem set_diff_app (A A' B : list Condition) :
  set_diff (A ++ A') B = (set_diff A B ++ set_diff A' B)%list.
Proof. rewrite !set_diff_filter. apply filter_app. Qed.

(** X6: two successive deletions are one deletion of the concatenated
    lists; in particular deleting the same list twice changes nothing
    the second time. *)
Theorem set_diff_twice (A B C : list Condition) :
  set_diff (set_diff A B) C = set_diff A (B ++ C)
  /\ set_diff (set_diff A B) B = set_diff A B.
Proof.
  rewrite !set_diff_filter, !list_filter_filter. split.
  - apply list_filter_iff. intros x. rewrite not_elem_of_app. tauto.
  - apply list_filter_iff. intros x. tauto.
Qed.

(** X7: the second argument of [set_diff] counts as a set: two lists
    with the same members delete the same elements, and an empty list
    deletes nothing. *)
Theorem set_diff_second_as_set (A B B' : list Condition) :
  (forall x, x ∈ B <-> x ∈ B') ->
  set_diff A B = set_diff A B' /\ set_diff A [] = A.
Proof.
  intros Heq. split; [|apply set_diff_nil_r].
  rewrite !set_diff_filter. apply list_filter_iff. intros x.
  by rewrite Heq.
Qed.

Lemma set_diff_second_as_set_witness :
  (forall x, x ∈ [son_at_home; have_money] <->
             x ∈ [have_money; son_at_home; have_money])
  /\ set_diff school_state [son_at_home; have_money]
     = set_diff school_state [have_money; son_at_home; have_money]
  /\ set_diff school_state [] = school_state.
Proof.
  assert (forall x, x ∈ [son_at_home; have_money] <->
                    x ∈ [have_money; son_at_home; have_money]) as H.
  { intros x. rewrite !elem_of_cons, !elem_of_nil. tauto. }
  split; [exact H|].
  exact (set_diff_second_as_set school_state _ _ H).
Defined.

(** X8: [set_diff] keeps the multiplicity of what it keeps: the result
    is no longer than the first argument, and has no repetition when the
    first argument has none. *)
Theorem set_diff_length_NoDup (A B : list Condition) :
  length (set_diff A B) <= length A
  /\ (NoDup A -> NoDup (set_diff A B)).
Proof.
  split.
  - apply sublist_length, set_diff_sublist.
  - intros H. eapply sublist_NoDup; [exact H | apply set_diff_sublist].
Qed.

Lemma set_diff_length_NoDup_witness :
  NoDup school_state
  /\ length (set_diff school_state [have_money]) <= length school_state
  /\ NoDup (set_diff school_state [have_money]).
Proof.
  assert (NoDup school_state) as H by by_decide.
  destruct (set_diff_length_NoDup school_state [have_money]) as [H1 H2].
  split; [exact H|]. split; [exact H1 | exact (H2 H)].
Defined.

(** ** achieve and apply_op, one call at a time *)

(** What a call of [achieve] with fuel left amounts to: the candidates
    are tried, and the answer is the membership of the goal in the state
    at the start or-ed with the answer of the candidates. *)
Lemma achieve_S_Some fuel goal w b w' :
  achieve (S fuel) goal w = Some (b, w') <->
  exists r,
    any_of (apply_op fuel)
           (filter (fun op => goal ∈ add_list op) (current_operations w)) w
      = Some (r, w')
    /\ b = bool_decide (goal ∈ current_state w) || r.
Proof.
  cbn [achieve]. unfold bind at 1 2. cbn [get_state get_operations].
  rewrite find_all_appropriate, bind_Some. unfold apply_op. split.
  - intros (r & w1 & H1 & H2). unfold ret in H2. simplify_eq.
    exists r. by rewrite std_end_eqb_find.
  - intros (r & H1 & ->). exists r, w'. split; [done|].
    unfold ret. by rewrite std_end_eqb_find.
Qed.

Lemma any_of_true {A} (p : A -> M bool) (l : list A) w w' :
  any_of p l w = Some (true, w') ->
  exists x w1, x ∈ l /\ p x w1 = Some (true, w').
Proof.
  revert w. induction l as [|x l IH]; simpl; intros w H.
  - by inv_M H.
  - apply bind_Some in H as ([] & w1 & H1 & H2).
    + inv_M H2. exists x, w. split; [left | done].
    + destruct (IH _ H2) as (y & w2 & Hy & H3).
      exists y, w2. split; [by right | done].
Qed.

(** X9: a goal that is in the state is always reported achieved: when
    a call of [achieve] returns and the goal was in the state at the
    start, the answer is true; so an answer of false means the goal was
    not in the state. *)
Theorem achieve_goal_in_state (fuel : nat) (goal : Condition)
    (w w' : World) (b : bool) :
  achieve fuel goal w = Some (b, w') ->
  (goal ∈ current_state w -> b = true)
  /\ (b = false -> goal ∉ current_state w).
Proof.
  destruct fuel as [|fuel]; [discriminate|].
  intros (r & _ & ->)%achieve_S_Some. split.
  - intros Hin. by rewrite bool_decide_eq_true_2.
  - intros [H _]%orb_false_iff. by apply bool_decide_eq_false in H.
Qed.

Lemma achieve_goal_in_state_witness :
  achieve 2 shop_has_money paid_world
    = Some (true, mkWorld [shop_has_money] school_ops
                          [Executing "give-shop-money"])
  /\ (shop_has_money ∈ current_state paid_world -> true = true)
  /\ (true = false -> shop_has_money ∉ current_state paid_world).
Proof.
  assert (achieve 2 shop_has_money paid_world
          = Some (true, mkWorld [shop_has_money] school_ops
                                [Executing "give-shop-money"])) as H
    by (vm_compute; reflexivity).
  split; [exact H|].
  exact (achieve_goal_in_state 2 shop_has_money paid_world _ true H).
Defined.

(** X10: when [achieve] answers true for a goal that was not in the
    state, the last thing printed is the execution of an operation of
    the library that has the goal in its add-list. *)
Theorem achieve_true_by_operation (fuel : nat) (goal : Condition)
    (w w' : World) :
  achieve fuel goal w = Some (true, w') ->
  goal ∉ current_state w ->
  exists op,
    op ∈ current_operations w
    /\ goal ∈ add_list op
    /\ last (stdout w') = Some (Executing (action op)).
Proof.
  destruct fuel as [|fuel]; [discriminate|].
  intros (r & Hany & Hb)%achieve_S_Some Hnot.
  rewrite bool_decide_eq_false_2 in Hb by done. simpl in Hb. subst r.
  apply any_of_true in Hany as (op & w1 & Hop & Happ).
  apply list_elem_of_filter in Hop as [Hadd Hop].
  apply apply_op_with_Some in Happ as (w2 & _ & ->).
  exists op. split_and!; [done..|]. simpl. apply last_snoc.
Qed.

Lemma achieve_true_by_operation_witness :
  achieve 2 know_phone_number phone_book_world
    = Some (true, mkWorld [have_phone_book] school_ops
                          [Executing "look-up-number"])
  /\ (know_phone_number ∉ current_state phone_book_world)
  /\ exists op,
       op ∈ current_operations phone_book_world
       /\ know_phone_number ∈ add_list op
       /\ last [Executing "look-up-number"] = Some (Executing (action op)).
Proof.
  assert (achieve 2 know_phone_number phone_book_world
          = Some (true, mkWorld [have_phone_book] school_ops
                                [Executing "look-up-number"])) as H
    by (vm_compute; reflexivity).
  assert (know_phone_number ∉ current_state phone_book_world) as Hn
    by by_decide.
  split; [exact H|]. split; [exact Hn|].
  exact (achieve_true_by_operation 2 know_phone_number phone_book_world _ H Hn).
Defined.

(** X11: a goal that no operation adds costs nothing to test: with any
    fuel at all, [achieve] answers whether the goal is in the state and
    leaves the state, the library and the output as they were. *)
Theorem achieve_without_candidates (fuel : nat) (goal : Condition)
    (w : World) :
  Forall (fun op => goal ∉ add_list op) (current_operations w) ->
  achieve (S fuel) goal w
  = Some (bool_decide (goal ∈ current_state w), w).
Proof.
  intros Hops. apply achieve_S_Some. exists false. split.
  - apply find_all_no_candidate in Hops.
    rewrite find_all_appropriate in Hops. by rewrite Hops.
  - by rewrite orb_false_r.
Qed.

Lemma achieve_without_candidates_witness :
  Forall (fun op => son_at_home ∉ add_list op)
         (current_operations school_world)
  /\ achieve 1 son_at_home school_world
     = Some (bool_decide (son_at_home ∈ current_state school_world),
             school_world).
Proof.
  assert (Forall (fun op => son_at_home ∉ add_list op)
                 (current_operations school_world)) as H by by_decide.
  split; [exact H|].
  exact (achieve_without_candidates 0 son_at_home school_world H).
Defined.

(** X12: an operation without preconditions is always executed,
    whatever the fuel and the state: [apply_op] prints its record,
    deletes its del-list from the state and returns true. *)
Theorem apply_op_no_preconds (fuel : nat) (op : Op) (w : World) :
  preconds op = [] ->
  apply_op fuel op w
  = Some (true, mkWorld (set_diff (current_state w) (del_list op))
                        (current_operations w)
                        (stdout w ++ [Executing (action op)])).
Proof.
  intros Hpre. apply apply_op_with_Some. exists w.
  rewrite Hpre. split; [done|]. by rewrite set_union_first.
Qed.

Lemma apply_op_no_preconds_witness :
  preconds recharge_battery = []
  /\ apply_op 0 recharge_battery charged_world
     = Some (true,
             mkWorld (set_diff (current_state charged_world)
                               (del_list recharge_battery))
                     (current_operations charged_world)
                     (stdout charged_world
                        ++ [Executing (action recharge_battery)])).
Proof.
  split; [reflexivity|].
  exact (apply_op_no_preconds 0 recharge_battery charged_world eq_refl).
Defined.

Lemma all_of_achieve_held fuel (l : list Condition) w :
  Forall (fun p => p ∈ current_state w
                   /\ Forall (fun op => p ∉ add_list op)
                             (current_operations w)) l ->
  all_of (achieve (S fuel)) l w = Some (true, w).
Proof.
  induction 1 as [|p l [Hin Hops] _ IH]; [done|].
  cbn [all_of]. unfold bind.
  rewrite achieve_without_candidates by done.
  by rewrite bool_decide_eq_true_2.
Qed.

(** X13: an operation whose preconditions all hold in the state, none
    of them being added by any operation, is executed without anything
    else happening: one record is printed and the state loses the
    del-list. *)
Theorem apply_op_applicable (fuel : nat) (op : Op) (w : World) :
  Forall (fun p => p ∈ current_state w
                   /\ Forall (fun o => p ∉ add_list o)
                             (current_operations w)) (preconds op) ->
  apply_op (S fuel) op w
  = Some (true, mkWorld (set_diff (current_state w) (del_list op))
                        (current_operations w)
                        (stdout w ++ [Executing (action op)])).
Proof.
  intros Hpre. apply apply_op_with_Some. exists w.
  split; [by apply all_of_achieve_held|]. by rewrite set_union_first.
Qed.

Lemma apply_op_applicable_witness :
  Forall (fun p => p ∈ current_state school_world
                   /\ Forall (fun o => p ∉ add_list o)
                             (current_operations school_world))
         (preconds give_shop_money)
  /\ apply_op 1 give_shop_money school_world
     = Some (true,
             mkWorld (set_diff (current_state school_world)
                               (del_list give_shop_money))
                     (current_operations school_world)
                     (stdout school_world
                        ++ [Executing (action give_shop_money)])).
Proof.
  assert (Forall (fun p => p ∈ current_state school_world
                   /\ Forall (fun o => p ∉ add_list o)
                             (current_operations school_world))
                 (preconds give_shop_money)) as H by by_decide.
  split; [exact H|].
  exact (apply_op_applicable 0 give_shop_money school_world H).
Defined.



(** ** What a whole run does to the globals and to the output *)

(** X15: the library is read-only: whenever a call of [achieve], of
    [apply_op] or of [GPS] returns, [current_operations] is what it was
    before the call. *)
Theorem operations_never_change (fuel : nat) (w w' : World) :
  (exists goal b, achieve fuel goal w = Some (b, w'))
  \/ (exists op b, apply_op fuel op w = Some (b, w'))
  \/ (exists state goals ops u, GPS fuel state goals ops w = Some (u, w')) ->
  current_operations w' = current_operations w.
Proof.
  intros [(goal & b & H)|[(op & b & H)|(st & gs & ops & u & H)]].
  - by eapply achieve_evolves.
  - by eapply apply_op_evolves.
  - by eapply GPS_evolves.
Qed.

Lemma operations_never_change_witness :
  GPS 6 school_state [son_at_school] school_ops school_world
    = Some (tt, school_final)
  /\ current_operations school_final = current_operations school_world.
Proof.
  assert (GPS 6 school_state [son_at_school] school_ops school_world
          = Some (tt, school_final)) as H by (vm_compute; reflexivity).
  split; [exact H|].
  apply (operations_never_change 6 school_world school_final).
  right. right. exists school_state, [son_at_school], school_ops, tt.
  exact H.
Defined.

#[local] Instance emits_preorder lib : PreOrder (emits lib).
Proof.
  split.
  - intros w Hw. split; [done|]. exists []. split; [apply list_subseteq_nil|].
    simpl. by rewrite app_nil_r.
  - intros w1 w2 w3 H12 H23 Hw.
    destruct (H12 Hw) as (Hw2 & l1 & Hl1 & Hout1).
    destruct (H23 Hw2) as (Hw3 & l2 & Hl2 & Hout2).
    split; [done|]. exists (l1 ++ l2)%list. split.
    + intros x [?|?]%elem_of_app; auto.
    + by rewrite Hout2, Hout1, map_app, app_assoc.
Qed.

Section InvariantIn.
Context (R : World -> World -> Prop) `{!PreOrder R}.

Lemma all_of_preserves_in {A} (p : A -> M bool) (l : list A) :
  (forall x w b w', x ∈ l -> p x w = Some (b, w') -> R w w') ->
  forall w b w', all_of p l w = Some (b, w') -> R w w'.
Proof.
  induction l as [|x l IH]; simpl; intros Hp w b w' H.
  - inv_M H. reflexivity.
  - assert (R w w' \/ exists w1, R w w1 /\ all_of p l w1 = Some (b, w'))
      as [?|(w1 & H1 & H2)].
    { apply bind_Some in H as ([] & w1 & H1 & H2).
      - right. exists w1. split; [|done]. eapply Hp; [left | done].
      - inv_M H2. left. eapply Hp; [left | done]. }
    + done.
    + etrans; [exact H1|]. eapply IH; [|exact H2].
      intros y ? ? ? Hy. apply Hp. by right.
Qed.

Lemma any_of_preserves_in {A} (p : A -> M bool) (l : list A) :
  (forall x w b w', x ∈ l -> p x w = Some (b, w') -> R w w') ->
  forall w b w', any_of p l w = Some (b, w') -> R w w'.
Proof.
  induction l as [|x l IH]; simpl; intros Hp w b w' H.
  - inv_M H. reflexivity.
  - assert (R w w' \/ exists w1, R w w1 /\ any_of p l w1 = Some (b, w'))
      as [?|(w1 & H1 & H2)].
    { apply bind_Some in H as ([] & w1 & H1 & H2).
      - inv_M H2. left. eapply Hp; [left | done].
      - right. exists w1. split; [|done]. eapply Hp; [left | done]. }
    + done.
    + etrans; [exact H1|]. eapply IH; [|exact H2].
      intros y ? ? ? Hy. apply Hp. by right.
Qed.
End InvariantIn.

Lemma apply_op_with_emits lib ach op :
  op ∈ lib ->
  (forall g w b w', ach g w = Some (b, w') -> emits lib w w') ->
  forall w b w', apply_op_with ach op w = Some (b, w') -> emits lib w w'.
Proof.
  intros Hop Hach w b w' H. apply apply_op_with_Some in H as (w1 & H1 & ->).
  assert (emits lib w w1) as Hev
    by (by eapply (all_of_preserves (emits lib))).
  destruct b; [|done]. etrans; [exact Hev|].
  intros Hw1. split; [done|]. exists [op]. split; [|done].
  by intros x ->%list_elem_of_singleton.
Qed.

Lemma achieve_emits lib fuel :
  forall goal w b w', achieve fuel goal w = Some (b, w') -> emits lib w w'.
Proof.
  induction fuel as [|fuel IH]; intros goal w b w' H; [discriminate H|].
  apply achieve_S_Some in H as (r & H & _). intros Hw.
  refine (any_of_preserves_in (emits lib) _ _ _ _ _ _ H Hw).
  intros op w1 b1 w2 Hop Happ.
  eapply apply_op_with_emits; [|apply IH|exact Happ].
  apply list_elem_of_filter in Hop as [_ Hop]. by rewrite <- Hw.
Qed.

(** X16: [achieve] prints nothing but executions of operations of the
    library: when it returns, the output is the output before the call
    followed by one record for each operation of some list of
    operations of [current_operations]. *)
Theorem achieve_output (fuel : nat) (goal : Condition) (w w' : World)
    (b : bool) :
  achieve fuel goal w = Some (b, w') ->
  exists l : list Op,
    l ⊆ current_operations w
    /\ stdout w' = (stdout w ++ map (fun op => Executing (action op)) l)%list.
Proof.
  intros H.
  by destruct (achieve_emits (current_operations w) fuel goal w b w' H eq_refl).
Qed.

Lemma achieve_output_witness :
  achieve 2 shop_has_money paid_world
    = Some (true, mkWorld [shop_has_money] school_ops
                          [Executing "give-shop-money"])
  /\ exists l : list Op,
       l ⊆ current_operations paid_world
       /\ [Executing "give-shop-money"]
          = (stdout paid_world
               ++ map (fun op => Executing (action op)) l)%list.
Proof.
  assert (achieve 2 shop_has_money paid_world
          = Some (true, mkWorld [shop_has_money] school_ops
                                [Executing "give-shop-money"])) as H
    by (vm_compute; reflexivity).
  split; [exact H|].
  exact (achieve_output 2 shop_has_money paid_world _ true H).
Defined.

(** X17: a run of [GPS] that returns has printed the executions of some
    operations of the library and then exactly one verdict, SOLVED or
    FAILED, as its last line. *)
Theorem GPS_output (fuel : nat) (state goals : list Condition)
    (ops : list Op) (w w' : World) (u : unit) :
  GPS fuel state goals ops w = Some (u, w') ->
  exists (l : list Op) (verdict : Printf),
    l ⊆ current_operations w
    /\ (verdict = Solved \/ verdict = Failed)
    /\ stdout w' = (stdout w ++ map (fun op => Executing (action op)) l
                             ++ [verdict])%list.
Proof.
  unfold GPS. intros H. apply bind_Some in H as (ok & w1 & H1 & H2).
  assert (emits (current_operations w) w w1) as Hev
    by (eapply (all_of_preserves (emits _)); [apply achieve_emits | exact H1]).
  destruct (Hev eq_refl) as (_ & l & Hl & Hout).
  exists l, (if ok then Solved else Failed). split; [done|].
  split; [destruct ok; auto|].
  destruct ok; inv_M H2; simpl; by rewrite Hout, <- app_assoc.
Qed.

Lemma GPS_output_witness :
  GPS 6 school_state [son_at_school] school_ops school_world
    = Some (tt, school_final)
  /\ exists (l : list Op) (verdict : Printf),
       l ⊆ current_operations school_world
       /\ (verdict = Solved \/ verdict = Failed)
       /\ stdout school_final
          = (stdout school_world ++ map (fun op => Executing (action op)) l
                                 ++ [verdict])%list.
Proof.
  assert (GPS 6 school_state [son_at_school] school_ops school_world
          = Some (tt, school_final)) as H by (vm_compute; reflexivity).
  split; [exact H|].
  exact (GPS_output 6 school_state [son_at_school] school_ops
           school_world school_final tt H).
Defined.

Lemma all_of_app {A} (p : A -> M bool) (l1 l2 : list A) w w1 :
  all_of p l1 w = Some (true, w1) ->
  all_of p (l1 ++ l2) w = all_of p l2 w1.
Proof.
  revert w. induction l1 as [|x l1 IH]; simpl; intros w H.
  - by inv_M H.
  - apply bind_Some in H as ([] & w2 & H1 & H2).
    + unfold bind at 1. rewrite H1. by apply IH.
    + by inv_M H2.
Qed.

(** X18: [GPS] takes the goals in order and stops at the first one that
    fails: the goals after it are not attempted, and FAILED is printed
    in the world that the failing call left.  With no goal at all it
    prints SOLVED and touches nothing else, whatever the fuel. *)
Theorem GPS_stops_at_first_failure (fuel : nat)
    (state gs1 gs2 : list Condition) (g : Condition) (ops : list Op)
    (w w1 w2 : World) :
  GPS fuel state [] ops w
  = Some (tt, mkWorld (current_state w) (current_operations w)
                      (stdout w ++ [Solved]))
  /\ (all_of (achieve fuel) gs1 w = Some (true, w1) ->
      achieve fuel g w1 = Some (false, w2) ->
      GPS fuel state (gs1 ++ g :: gs2) ops w
      = Some (tt, mkWorld (current_state w2) (current_operations w2)
                          (stdout w2 ++ [Failed]))).
Proof.
  split; [reflexivity|]. intros H1 H2. unfold GPS, bind.
  rewrite (all_of_app _ _ _ _ _ H1). cbn [all_of]. unfold bind.
  by rewrite H2.
Qed.

Lemma GPS_stops_at_first_failure_witness :
  all_of (achieve 1) [son_at_home] (mkWorld [son_at_home] school_ops [])
    = Some (true, mkWorld [son_at_home] school_ops [])
  /\ achieve 1 car_needs_battery (mkWorld [son_at_home] school_ops [])
     = Some (false, mkWorld [son_at_home] school_ops [])
  /\ GPS 1 [] ([son_at_home] ++ car_needs_battery :: [son_at_school]) []
         (mkWorld [son_at_home] school_ops [])
     = Some (tt, mkWorld [son_at_home] school_ops [Failed]).
Proof.
  assert (all_of (achieve 1) [son_at_home] (mkWorld [son_at_home] school_ops [])
          = Some (true, mkWorld [son_at_home] school_ops [])) as H1
    by (vm_compute; reflexivity).
  assert (achieve 1 car_needs_battery (mkWorld [son_at_home] school_ops [])
          = Some (false, mkWorld [son_at_home] school_ops [])) as H2
    by (vm_compute; reflexivity).
  split; [exact H1|]. split; [exact H2|].
  exact (proj2 (GPS_stops_at_first_failure 1 [] [son_at_home] [son_at_school]
                  car_needs_battery [] _ _ _) H1 H2).
Defined.

(** ** Termination *)

Section Returns.
Context (Inv : World -> Prop).

Lemma all_of_returns {A} (p : A -> M bool) (l : list A) :
  (forall x w, x ∈ l -> Inv w -> exists b w', p x w = Some (b, w') /\ Inv w') ->
  forall w, Inv w -> exists b w', all_of p l w = Some (b, w') /\ Inv w'.
Proof.
  induction l as [|x l IH]; simpl; intros Hp w Hw.
  - by exists true, w.
  - destruct (Hp x w) as (b & w1 & H1 & Hw1); [left | done |].
    unfold bind. rewrite H1. destruct b; [|by exists false, w1].
    apply IH; [|done]. intros y ? Hy. apply Hp. by right.
Qed.

Lemma any_of_returns {A} (p : A -> M bool) (l : list A) :
  (forall x w, x ∈ l -> Inv w -> exists b w', p x w = Some (b, w') /\ Inv w') ->
  forall w, Inv w -> exists b w', any_of p l w = Some (b, w') /\ Inv w'.
Proof.
  induction l as [|x l IH]; simpl; intros Hp w Hw.
  - by exists false, w.
  - destruct (Hp x w) as (b & w1 & H1 & Hw1); [left | done |].
    unfold bind. rewrite H1. destruct b; [by exists true, w1|].
    apply IH; [|done]. intros y ? Hy. apply Hp. by right.
Qed.
End Returns.

Lemma achieve_returns_step rank lib k fuel :
  stratified rank lib ->
  (forall p w, current_operations w = lib -> rank p < k ->
     exists b w', achieve fuel p w = Some (b, w')) ->
  forall goal w, current_operations w = lib -> rank goal <= k ->
    exists b w', achieve (S fuel) goal w = Some (b, w').
Proof.
  intros Hstrat IH goal w Hw Hrank.
  destruct (any_of_returns (fun w => current_operations w = lib)
              (apply_op fuel)
              (filter (fun op => goal ∈ add_list op) lib)) with (w := w)
    as (r & w' & H & _); [|done|].
  - intros op w1 [Hadd Hop]%list_elem_of_filter Hw1.
    destruct (all_of_returns (fun w => current_operations w = lib)
                (achieve fuel) (preconds op)) with (w := w1)
      as (ok & w2 & H2 & Hw2); [|done|].
    + intros p w2 Hp Hw2.
      destruct (IH p w2 Hw2) as (b & w3 & H3).
      * unfold stratified in Hstrat. rewrite Forall_forall in Hstrat.
        pose proof (Hstrat op Hop) as Hpre. rewrite Forall_forall in Hpre.
        pose proof (Hpre p Hp) as Hall. rewrite Forall_forall in Hall.
        pose proof (Hall goal Hadd). lia.
      * exists b, w3. split; [done|].
        apply achieve_evolves in H3 as [_ Hops _]. congruence.
    + eexists ok, _. split.
      * apply apply_op_with_Some. exists w2. split; [exact H2 | done].
      * by destruct ok.
  - exists (bool_decide (goal ∈ current_state w) || r), w'.
    apply achieve_S_Some. exists r. by rewrite Hw.
Qed.

(** X19: with a library stratified by a rank, where every precondition
    of an operation ranks below what the operation adds, the recursion
    is bounded: [achieve] returns for every goal and every state once
    the fuel exceeds the rank of the goal. *)
Theorem achieve_returns_when_stratified (rank : Condition -> nat)
    (fuel : nat) (goal : Condition) (w : World) :
  stratified rank (current_operations w) ->
  rank goal < fuel ->
  exists b w', achieve fuel goal w = Some (b, w').
Proof.
  intros Hstrat. remember (current_operations w) as lib eqn:Hw.
  symmetry in Hw. revert goal w Hw.
  induction fuel as [|fuel IH]; intros goal w Hw Hrank; [lia|].
  apply (achieve_returns_step rank lib fuel fuel Hstrat); [|done|lia].
  intros p w1 Hw1 Hp. by apply IH.
Qed.

Lemma achieve_returns_when_stratified_witness :
  stratified school_rank (current_operations school_world)
  /\ school_rank son_at_school < 6
  /\ exists b w', achieve 6 son_at_school school_world = Some (b, w').
Proof.
  assert (stratified school_rank (current_operations school_world)) as H1
    by by_decide.
  assert (school_rank son_at_school < 6) as H2 by (vm_compute; lia).
  split; [exact H1|]. split; [exact H2|].
  exact (achieve_returns_when_stratified school_rank 6 son_at_school
           school_world H1 H2).
Defined.

(** X20: there is no guard against circular operations: when the first
    candidate for a goal has that very goal as its first precondition,
    [achieve] calls itself on the same goal in the same world and never
    returns, whatever the fuel, even when the goal is already in the
    state. *)
Theorem achieve_diverges_on_cycle (goal : Condition) (op : Op)
    (rest : list Op) (pre : list Condition) (w : World) (fuel : nat) :
  find_all goal (current_operations w) appropriate_p = op :: rest ->
  preconds op = goal :: pre ->
  achieve fuel goal w = None.
Proof.
  intros Hcand Hpre. induction fuel as [|fuel IH]; [done|].
  destruct (achieve (S fuel) goal w) as [[b w']|] eqn:H; [|done].
  apply achieve_S_Some in H as (r & H & _).
  rewrite <- find_all_appropriate, Hcand in H. cbn [any_of] in H.
  apply bind_Some in H as (b1 & w1 & H1 & _).
  apply apply_op_with_Some in H1 as (w2 & H1 & _).
  rewrite Hpre in H1. cbn [all_of] in H1.
  apply bind_Some in H1 as (b2 & w3 & H1 & _). congruence.
Qed.

Lemma achieve_diverges_on_cycle_witness :
  find_all son_at_home (current_operations home_world) appropriate_p
    = stay_at_home :: []
  /\ preconds stay_at_home = son_at_home :: []
  /\ achieve 100 son_at_home home_world = None.
Proof.
  assert (find_all son_at_home (current_operations home_world) appropriate_p
          = stay_at_home :: []) as H1 by (vm_compute; reflexivity).
  split; [exact H1|]. split; [reflexivity|].
  exact (achieve_diverges_on_cycle son_at_home stay_at_home [] []
           home_world 100 H1 eq_refl).
Defined.
